(** * examples/service-worker/webpack.config.js

    A shallow embedding of the webpack configuration factory of the
    service-worker example, and the structural properties of the
    configuration object it returns.

    The factory is JavaScript: it builds fresh objects and arrays on the heap,
    calls [path.join] (which throws a [TypeError] on a non-string argument)
    and constructs one [HtmlWebpackPlugin] instance.  The embedding keeps all
    of this explicit: values are dynamically typed, objects live in a heap
    addressed by location, and evaluation runs in a state-and-error monad. *)

From Stdlib Require Import List String Ascii Bool Arith Lia.
Import ListNotations.
Local Open Scope string_scope.
Local Open Scope list_scope.
Set Warnings "-register-all".

(** ** JavaScript values and the heap *)

Definition loc := nat.

(** A value is a primitive or a reference to a heap object.  A regular
    expression literal is kept as its source text and flags. *)
Inductive value : Type :=
| VUndefined
| VStr (s : string)
| VRegExp (source flags : string)
| VRef (l : loc).

(** Heap objects: plain objects keep their properties in insertion order,
    arrays their elements, and an instance remembers the constructor it was
    made by and the arguments passed to [new]. *)
Inductive object : Type :=
| OObject (props : list (string * value))
| OArray (elems : list value)
| OInstance (ctor : string) (args : list value).

(** The heap lists its objects newest first; an object's location is its
    position counted from the oldest one, so locations never change as the
    heap grows. *)
Definition heap := list object.

Definition lookup (h : heap) (l : loc) : option object := nth_error (rev h) l.

Inductive error : Type :=
| TypeError (msg : string).

(** ** The evaluation monad: heap passing with exceptions *)

Definition M (A : Type) : Type := heap -> error + (A * heap).

Definition ret {A} (a : A) : M A := fun h => inr (a, h).

Definition throw {A} (e : error) : M A := fun _ => inl e.

Definition bind {A B} (m : M A) (k : A -> M B) : M B :=
  fun h => match m h with
           | inl e => inl e
           | inr (a, h') => k a h'
           end.

Notation "x <- m ;; k" := (bind m (fun x => k))
  (at level 61, m at next level, right associativity).

(** Allocation puts the new object at the first unused location. *)
Definition alloc (o : object) : M value :=
  fun h => inr (VRef (List.length h), o :: h).

(** [{ k1: v1, ... }], [[v1, ...]] and [new C(args)].  Of a constructor call
    the model keeps the new instance and the arguments it was given; what
    the plugin's constructor builds inside the instance belongs to the
    plugin and is not modelled. *)
Definition new_object (props : list (string * value)) : M value :=
  alloc (OObject props).

Definition new_array (elems : list value) : M value :=
  alloc (OArray elems).

Definition new_instance (ctor : string) (args : list value) : M value :=
  alloc (OInstance ctor args).

(** ** Node's [path] module

    [require('path')] is the platform's path module; the factory only uses
    [join].  [join] takes any number of arguments and throws a [TypeError]
    unless each of them is a string. *)
Record PathModule : Type := {
  join : list string -> string
}.

Fixpoint validateStrings (args : list value) : option (list string) :=
  match args with
  | [] => Some []
  | VStr s :: rest =>
      match validateStrings rest with
      | Some ss => Some (s :: ss)
      | None => None
      end
  | _ :: _ => None
  end.

Definition path_join (path : PathModule) (args : list value) : M value :=
  match validateStrings args with
  | Some ss => ret (VStr (join path ss))
  | None => throw (TypeError "The path argument must be of type string")
  end.

(** *** The POSIX implementation of [path]

    [path.posix] as Node documents it: [join] glues its non-empty arguments
    with the separator and normalizes the result; [normalize] drops empty
    and [.] segments, resolves [..] against the segment before it, keeps a
    leading and a trailing separator, and never returns the empty string.
    Node's [normalizeString] scans the characters once; here the same
    function is written on the segments between separators. *)
Module Posix.

Definition sep : ascii := "/".

(** [s.split('/')]: the segments between separators, at least one. *)
Fixpoint split (s : string) : list string :=
  match s with
  | EmptyString => [EmptyString]
  | String c s' =>
      if Ascii.eqb c sep then EmptyString :: split s'
      else match split s' with
           | seg :: segs => String c seg :: segs
           | [] => [String c EmptyString]
           end
  end.

(** One segment of [normalizeString]; [res] holds the segments kept so far,
    last one first. *)
Definition normalizeStep (allowAboveRoot : bool) (res : list string)
    (seg : string) : list string :=
  if String.eqb seg "" || String.eqb seg "." then res
  else if String.eqb seg ".." then
    match res with
    | last :: res' =>
        if String.eqb last ".." then
          (if allowAboveRoot then ".." :: res else res)
        else res'
    | [] => if allowAboveRoot then [".."] else []
    end
  else seg :: res.

Definition normalizeString (path : string) (allowAboveRoot : bool) : string :=
  String.concat "/"
    (rev (fold_left (normalizeStep allowAboveRoot) (split path) [])).

Definition isAbsolute (path : string) : bool :=
  match path with
  | String c _ => Ascii.eqb c sep
  | EmptyString => false
  end.

Fixpoint trailingSeparator (path : string) : bool :=
  match path with
  | EmptyString => false
  | String c EmptyString => Ascii.eqb c sep
  | String _ rest => trailingSeparator rest
  end.

Definition normalize (path : string) : string :=
  if String.eqb path "" then "."
  else
    let p := normalizeString path (negb (isAbsolute path)) in
    if String.eqb p "" then
      (if isAbsolute path then "/"
       else if trailingSeparator path then "./" else ".")
    else
      (if isAbsolute path then "/" else "")
        ++ p ++ (if trailingSeparator path then "/" else "").

Definition join (args : list string) : string :=
  match filter (fun arg => negb (String.eqb arg "")) args with
  | [] => "."
  | parts => normalize (String.concat "/" parts)
  end.

End Posix.

Definition posix : PathModule := {| join := Posix.join |}.

(** ** The configuration factory *)

Section Factory.

(** [const path = require('path')] and the module's [__dirname]. *)
Variable path : PathModule.
Variable __dirname : string.

(** [module.exports = () => { return { ... }; }].  The arrow function has
    no parameters, so whatever arguments the caller passes are dropped.
    The literal is evaluated inside out, property values in source order;
    every object and array literal and the [new] expression allocate. *)
Definition module_exports (_ : list value) : M value :=
  main <- path_join path [VStr __dirname; VStr "src/index.ts"] ;;
  sw <- path_join path [VStr __dirname; VStr "src/sw.ts"] ;;
  entry <- new_object [("main", main); ("sw", sw)] ;;
  target <- new_array [VStr "webworker"] ;;
  output_path <- path_join path [VStr __dirname; VStr "dist"] ;;
  output <- new_object [("path", output_path);
                        ("filename", VStr "[name].js");
                        ("publicPath", VStr "/")] ;;
  loader <- new_object [("loader", VStr "ts-loader")] ;;
  use <- new_array [loader] ;;
  rule <- new_object [("test", VRegExp "\.tsx?$" "");
                      ("exclude", VRegExp "node_modules" "");
                      ("use", use)] ;;
  rules <- new_array [rule] ;;
  module <- new_object [("rules", rules)] ;;
  chunks <- new_array [VStr "main"] ;;
  options <- new_object [("template", VStr "src/index.html");
                         ("filename", VStr "index.html");
                         ("chunks", chunks)] ;;
  html <- new_instance "HtmlWebpackPlugin" [options] ;;
  plugins <- new_array [html] ;;
  new_object [("mode", VStr "development");
              ("entry", entry);
              ("target", target);
              ("output", output);
              ("module", module);
              ("plugins", plugins)].

End Factory.

(** ** Reading a value back as a tree

    What a consumer of the configuration sees is the structure reachable from
    the returned reference.  [reify] follows references through the heap; the
    fuel bounds the depth, since a heap may be cyclic. *)
Inductive tree : Type :=
| TUndefined
| TStr (s : string)
| TRegExp (source flags : string)
| TObject (props : list (string * tree))
| TArray (elems : list tree)
| TInstance (ctor : string) (args : list tree).

Fixpoint sequence {A} (l : list (option A)) : option (list A) :=
  match l with
  | [] => Some []
  | Some a :: rest =>
      match sequence rest with
      | Some r => Some (a :: r)
      | None => None
      end
  | None :: _ => None
  end.

Fixpoint reify (fuel : nat) (h : heap) (v : value) : option tree :=
  match fuel with
  | O => None
  | S fuel' =>
      match v with
      | VUndefined => Some TUndefined
      | VStr s => Some (TStr s)
      | VRegExp src fl => Some (TRegExp src fl)
      | VRef l =>
          match lookup h l with
          | None => None
          | Some (OObject props) =>
              match sequence (map (fun kv => reify fuel' h (snd kv)) props) with
              | Some ts => Some (TObject (combine (map fst props) ts))
              | None => None
              end
          | Some (OArray elems) =>
              match sequence (map (reify fuel' h) elems) with
              | Some ts => Some (TArray ts)
              | None => None
              end
          | Some (OInstance c args) =>
              match sequence (map (reify fuel' h) args) with
              | Some ts => Some (TInstance c ts)
              | None => None
              end
          end
      end
  end.

(** A chain of references through an acyclic heap visits each location at
    most once, so one more than the heap's size is fuel enough. *)
Definition snapshot (h : heap) (v : value) : option tree :=
  reify (S (List.length h)) h v.

(** Run the factory and read its result back from the final heap. *)
Definition evaluate (path : PathModule) (__dirname : string)
    (args : list value) (h : heap) : option tree :=
  match module_exports path __dirname args h with
  | inr (v, h') => snapshot h' v
  | inl _ => None
  end.

(** ** Reading the configuration: property access *)

Fixpoint assoc {A} (k : string) (l : list (string * A)) : option A :=
  match l with
  | [] => None
  | (k', a) :: rest => if String.eqb k k' then Some a else assoc k rest
  end.

(** [t.k]: the property [k] of an object. *)
Definition prop (k : string) (t : tree) : option tree :=
  match t with
  | TObject props => assoc k props
  | _ => None
  end.

(** [Object.keys(t)]. *)
Definition keys (t : tree) : list string :=
  match t with
  | TObject props => map fst props
  | _ => []
  end.

(** The options a plugin instance was constructed with. *)
Definition options_of (ctor : string) (t : tree) : option tree :=
  match t with
  | TInstance c (opts :: _) => if String.eqb c ctor then Some opts else None
  | _ => None
  end.

Definition option_bind {A B} (o : option A) (f : A -> option B) : option B :=
  match o with
  | Some a => f a
  | None => None
  end.

Notation "o >>= f" := (option_bind o f) (at level 50, left associativity).

(** ** Regular expressions

    The fragment of the pattern syntax the configuration uses: literal
    characters, escaped syntax characters, an optional character [c?] and
    the end assertion [$]; no flags.  Anything else is not interpreted. *)
Module RegExp.

Inductive token : Type :=
| KChar (c : ascii)
| KQuestion
| KDollar.

Inductive term : Type :=
| Char (c : ascii)
| Opt (c : ascii)
| End.

(** [^ $ \ . * + ? ( ) [ ] { } |] and the delimiter [/]. *)
Definition syntaxCharacter (c : ascii) : bool :=
  existsb (Ascii.eqb c)
    (list_ascii_of_string "^$\.*+?()[]{}|/").

Fixpoint tokenize (s : string) : option (list token) :=
  match s with
  | EmptyString => Some []
  | String c rest =>
      if Ascii.eqb c "\" then
        match rest with
        | String e rest' =>
            if syntaxCharacter e then
              option_map (cons (KChar e)) (tokenize rest')
            else None
        | EmptyString => None
        end
      else if Ascii.eqb c "?" then option_map (cons KQuestion) (tokenize rest)
      else if Ascii.eqb c "$" then option_map (cons KDollar) (tokenize rest)
      else if syntaxCharacter c then None
      else option_map (cons (KChar c)) (tokenize rest)
  end.

Fixpoint parseTerms (ts : list token) : option (list term) :=
  match ts with
  | [] => Some []
  | KChar c :: KQuestion :: rest => option_map (cons (Opt c)) (parseTerms rest)
  | KChar c :: rest => option_map (cons (Char c)) (parseTerms rest)
  | KDollar :: rest => option_map (cons End) (parseTerms rest)
  | KQuestion :: _ => None
  end.

Definition parse (source flags : string) : option (list term) :=
  if String.eqb flags "" then
    match tokenize source with
    | Some ts => parseTerms ts
    | None => None
    end
  else None.

(** Does the pattern match starting exactly at the head of [s]?  An
    optional character is tried first and skipped on failure. *)
Fixpoint matchHere (p : list term) (s : string) : bool :=
  match p with
  | [] => true
  | Char c :: p' =>
      match s with
      | String a s' => Ascii.eqb a c && matchHere p' s'
      | EmptyString => false
      end
  | Opt c :: p' =>
      match s with
      | String a s' => (Ascii.eqb a c && matchHere p' s') || matchHere p' s
      | EmptyString => matchHere p' s
      end
  | End :: p' =>
      match s with
      | EmptyString => matchHere p' s
      | String _ _ => false
      end
  end.

(** A pattern without a start anchor matches at any position. *)
Fixpoint search (p : list term) (s : string) : bool :=
  matchHere p s ||
  match s with
  | String _ s' => search p s'
  | EmptyString => false
  end.

(** [new RegExp(source, flags).test(s)]; [None] when the pattern lies
    outside the fragment. *)
Definition test (source flags s : string) : option bool :=
  option_map (fun p => search p s) (parse source flags).

End RegExp.

(** ** Output file names

    The bundler names the file of a chunk by substituting the chunk's name
    for every [[name]] placeholder of [output.filename]. *)
Fixpoint replaceFrom (skip : nat) (placeholder by_ s : string) : string :=
  match s with
  | EmptyString => EmptyString
  | String c s' =>
      match skip with
      | S k => replaceFrom k placeholder by_ s'
      | O =>
          if String.prefix placeholder s then
            by_ ++ replaceFrom (String.length placeholder - 1) placeholder by_ s'
          else String c (replaceFrom 0 placeholder by_ s')
      end
  end.

Definition chunkFilename (pattern name : string) : string :=
  replaceFrom 0 "[name]" name pattern.

(** ** Views of the configuration used by the statements *)

(** An array of strings as a list. *)
Fixpoint strings (ts : list tree) : option (list string) :=
  match ts with
  | [] => Some []
  | TStr s :: rest => option_map (cons s) (strings rest)
  | _ :: _ => None
  end.

Definition stringArray (t : tree) : option (list string) :=
  match t with
  | TArray elems => strings elems
  | _ => None
  end.

(** The options of the first instance of [ctor] in a plugin array. *)
Definition pluginOptions (ctor : string) (plugins : tree) : option tree :=
  match plugins with
  | TArray elems =>
      match filter (fun t => match options_of ctor t with
                             | Some _ => true
                             | None => false
                             end) elems with
      | t :: _ => options_of ctor t
      | [] => None
      end
  | _ => None
  end.

Definition htmlOptions (cfg : tree) : option tree :=
  prop "plugins" cfg >>= pluginOptions "HtmlWebpackPlugin".

(** Applying a rule's [test] or [exclude] pattern to a file name. *)
Definition ruleTest (field : string) (rule : tree) (file : string)
    : option bool :=
  match prop field rule with
  | Some (TRegExp source flags) => RegExp.test source flags file
  | _ => None
  end.

(** The loader names of a rule's [use] chain, in order. *)
Fixpoint loaderNames (uses : list tree) : option (list string) :=
  match uses with
  | [] => Some []
  | u :: rest =>
      match prop "loader" u with
      | Some (TStr name) => option_map (cons name) (loaderNames rest)
      | _ => None
      end
  end.

Definition ruleLoaders (rule : tree) : option (list string) :=
  match prop "use" rule with
  | Some (TArray uses) => loaderNames uses
  | _ => None
  end.

(** *** The shape the bundler expects *)

Definition isString (t : tree) : bool :=
  match t with TStr _ => true | _ => false end.

Definition isObject (t : tree) : bool :=
  match t with TObject _ => true | _ => false end.

Definition isInstance (t : tree) : bool :=
  match t with TInstance _ _ => true | _ => false end.

Definition arrayOf (p : tree -> bool) (t : tree) : bool :=
  match t with TArray elems => forallb p elems | _ => false end.

Definition mapOf (p : tree -> bool) (t : tree) : bool :=
  match t with
  | TObject props => forallb (fun kv => p (snd kv)) props
  | _ => false
  end.

Definition field (k : string) (p : tree -> bool) (t : tree) : bool :=
  match prop k t with
  | Some v => p v
  | None => false
  end.

Definition wellFormed (cfg : tree) : bool :=
  isObject cfg
  && field "mode" isString cfg
  && field "entry" (mapOf isString) cfg
  && field "target" (arrayOf isString) cfg
  && field "output"
       (fun o => isObject o
                 && field "path" isString o
                 && field "filename" isString o
                 && field "publicPath" isString o) cfg
  && field "module" (field "rules" (arrayOf isObject)) cfg
  && field "plugins" (arrayOf isInstance) cfg.

(** *** What the patterns are meant to accept *)

Definition endsWith (suffix s : string) : Prop :=
  exists before, s = (before ++ suffix)%string.

Definition contains (part s : string) : Prop :=
  exists before after, s = (before ++ part ++ after)%string.

(** *** Paths below the module's directory *)

(** A segment that [normalize] keeps as it is. *)
Definition plainSegment (seg : string) : bool :=
  negb (String.eqb seg "" || String.eqb seg "." || String.eqb seg "..").

(** A directory without the separator it may end in.  Node's [__dirname]
    ends in one only when it is the root. *)
Fixpoint stripTrailingSeparator (dir : string) : string :=
  match dir with
  | EmptyString => EmptyString
  | String c EmptyString =>
      if Ascii.eqb c Posix.sep then EmptyString else dir
  | String c rest => String c (stripTrailingSeparator rest)
  end.

(** The paths of [entry] and [output.path] are the directory [dir], one
    separator, and the relative path written in the source; so they are
    absolute and start with [dir].  The template of the HTML plugin is the
    relative path [src/index.html], which does not. *)
Definition pathsUnderDirname (dir : string) (cfg : tree) : Prop :=
  exists main sw out template,
    prop "entry" cfg = Some (TObject [("main", TStr main); ("sw", TStr sw)])
    /\ prop "output" cfg >>= prop "path" = Some (TStr out)
    /\ htmlOptions cfg >>= prop "template" = Some (TStr template)
    /\ main = (stripTrailingSeparator dir ++ "/" ++ "src/index.ts")%string
    /\ sw = (stripTrailingSeparator dir ++ "/" ++ "src/sw.ts")%string
    /\ out = (stripTrailingSeparator dir ++ "/" ++ "dist")%string
    /\ (forall p, In p [main; sw; out] ->
          Posix.isAbsolute p = true /\ String.prefix dir p = true)
    /\ template = "src/index.html"
    /\ Posix.isAbsolute template = false
    /\ String.prefix dir template = false.

(** ** Normal forms of paths *)

(** A segment holds no separator. *)
Fixpoint noSep (s : string) : bool :=
  match s with
  | EmptyString => true
  | String c s' => negb (Ascii.eqb c Posix.sep) && noSep s'
  end.

(** What [normalizeString] keeps: segments without separator; plain ones on
    top of a run of [..], and no [..] at all when going above the root is
    not allowed. *)
Definition normalStack (allowAboveRoot : bool) (res : list string) : Prop :=
  Forall (fun seg => noSep seg = true) res
  /\ exists plain k,
       res = plain ++ repeat ".." k
       /\ Forall (fun seg => plainSegment seg = true) plain
       /\ (allowAboveRoot = false -> k = 0).

(** ** Relocation

    Running the factory in a heap that already holds [b] objects yields the
    objects of a run in the empty heap, with every reference moved up by
    [b]. *)
Definition shift (b : nat) (v : value) : value :=
  match v with
  | VRef l => VRef (l + b)
  | _ => v
  end.

Definition shift_object (b : nat) (o : object) : object :=
  match o with
  | OObject props => OObject (map (fun kv => (fst kv, shift b (snd kv))) props)
  | OArray elems => OArray (map (shift b) elems)
  | OInstance c args => OInstance c (map (shift b) args)
  end.

(** * Properties *)

(** ** The heap and [reify] *)

Lemma lookup_old h news l :
  l < List.length h -> lookup (news ++ h) l = lookup h l.
Proof.
  intros Hl. unfold lookup. rewrite rev_app_distr.
  apply nth_error_app1. now rewrite length_rev.
Qed.

Lemma lookup_new h news k :
  lookup (news ++ h) (k + List.length h) = nth_error (rev news) k.
Proof.
  unfold lookup.
  rewrite rev_app_distr, nth_error_app2; rewrite length_rev; [|lia].
  f_equal. lia.
Qed.

Lemma sequence_map_weaken {A B} (f g : A -> option B) (l : list A) :
  (forall a b, f a = Some b -> g a = Some b) ->
  forall bs, sequence (map f l) = Some bs -> sequence (map g l) = Some bs.
Proof.
  intros Hfg. induction l as [|a l IH]; intros bs; cbn.
  - auto.
  - destruct (f a) as [b|] eqn:Hfa; [|discriminate].
    rewrite (Hfg _ _ Hfa).
    destruct (sequence (map f l)) as [r|]; [|discriminate].
    intros Hbs. now rewrite (IH r eq_refl).
Qed.

(** More fuel never changes a result already obtained. *)
Lemma reify_mono n h v t :
  reify n h v = Some t -> forall m, n <= m -> reify m h v = Some t.
Proof.
  revert v t. induction n as [|n IH]; intros v t Hr m Hm; [discriminate|].
  destruct m as [|m]; [lia|].
  assert (Hnm : n <= m) by lia.
  destruct v as [|s|src fl|l]; cbn in Hr |- *; auto.
  destruct (lookup h l) as [[props|elems|c args]|]; [| | |discriminate].
  - destruct (sequence (map (fun kv => reify n h (snd kv)) props))
      as [ts|] eqn:Hs; [|discriminate].
    erewrite sequence_map_weaken; [exact Hr| |exact Hs].
    cbn beta. intros a b Hab. now apply IH.
  - destruct (sequence (map (reify n h) elems)) as [ts|] eqn:Hs; [|discriminate].
    erewrite sequence_map_weaken; [exact Hr| |exact Hs].
    intros a b Hab. now apply IH.
  - destruct (sequence (map (reify n h) args)) as [ts|] eqn:Hs; [|discriminate].
    erewrite sequence_map_weaken; [exact Hr| |exact Hs].
    intros a b Hab. now apply IH.
Qed.

(** The tree read from relocated objects does not depend on where they sit
    nor on what the heap held before. *)
Lemma reify_shift n h news v :
  reify n (map (shift_object (List.length h)) news ++ h) (shift (List.length h) v)
  = reify n news v.
Proof.
  revert v. induction n as [|n IH]; intros v; [reflexivity|].
  destruct v as [|s|src fl|l]; try reflexivity.
  cbn [shift reify]. rewrite lookup_new. unfold lookup.
  rewrite <- map_rev, nth_error_map.
  destruct (nth_error (rev news) l) as [[props|elems|c args]|];
    cbn [option_map shift_object];
    [| | |reflexivity]; rewrite !map_map; cbn [fst snd].
  - rewrite (map_ext _ (fun kv => reify n news (snd kv))) by (intros; apply IH).
    reflexivity.
  - rewrite (map_ext _ (reify n news)) by (intros; apply IH). reflexivity.
  - rewrite (map_ext _ (reify n news)) by (intros; apply IH). reflexivity.
Qed.

(** ** Running the factory *)

Section Run.

Variable path : PathModule.
Variable __dirname : string.

Lemma module_exports_shift args h :
  match module_exports path __dirname [] [] with
  | inr (v0, h0) =>
      module_exports path __dirname args h
      = inr (shift (List.length h) v0,
             map (shift_object (List.length h)) h0 ++ h)
  | inl _ => False
  end.
Proof. reflexivity. Qed.

(** The tree the factory returns is the same whatever the arguments and
    the heap it starts from. *)
Lemma evaluate_frame args h :
  evaluate path __dirname args h = evaluate path __dirname [] [].
Proof.
  unfold evaluate. generalize (module_exports_shift args h).
  destruct (module_exports path __dirname [] []) as [e|[v0 h0]] eqn:E0;
    [tauto|].
  intros ->. unfold snapshot. rewrite reify_shift.
  destruct (reify (S (List.length h0)) h0 v0) as [t|] eqn:E.
  - apply (reify_mono _ _ _ _ E). rewrite length_app, length_map. lia.
  - exfalso. injection E0 as <- <-. discriminate E.
Qed.

End Run.

(** ** The returned configuration *)

(** C1. Whatever the arguments and the heap, the factory returns a
    configuration of the shape the bundler expects: [mode] is a string,
    [entry] maps chunk names to strings, [target] is an array of strings,
    [output] is an object with string fields [path], [filename] and
    [publicPath], [module.rules] is an array of objects and [plugins] an
    array of instances. *)
Theorem config_well_formed (path : PathModule) (__dirname : string)
    (args : list value) (h : heap) :
  exists cfg,
    evaluate path __dirname args h = Some cfg /\ wellFormed cfg = true.
Proof.
  rewrite evaluate_frame. eexists. split; reflexivity.
Qed.

(** C2. Every chunk named in the [chunks] option of the HTML plugin is a key
    of [entry]. *)
Theorem html_chunks_in_entry (path : PathModule) (__dirname : string)
    (args : list value) (h : heap) :
  exists cfg entry chunks,
    evaluate path __dirname args h = Some cfg
    /\ prop "entry" cfg = Some entry
    /\ htmlOptions cfg >>= prop "chunks" >>= stringArray = Some chunks
    /\ chunks = ["main"]
    /\ keys entry = ["main"; "sw"]
    /\ incl chunks (keys entry).
Proof.
  rewrite evaluate_frame. do 3 eexists.
  repeat (split; [reflexivity|]).
  intros c [<-|[]]. now left.
Qed.

(** C3. Evaluation is deterministic and has no effect on existing state: any
    two evaluations, from whatever heaps and with whatever arguments, return
    structurally equal configurations, and an evaluation only adds fresh
    objects to the heap, leaving every object that was there as it was. *)
Theorem evaluation_deterministic_pure (path : PathModule) (__dirname : string) :
  (forall args1 h1 args2 h2,
      exists cfg,
        evaluate path __dirname args1 h1 = Some cfg
        /\ evaluate path __dirname args2 h2 = Some cfg)
  /\ (forall args h,
         exists v news,
           module_exports path __dirname args h = inr (v, news ++ h)
           /\ forall l, l < List.length h -> lookup (news ++ h) l = lookup h l).
Proof.
  split.
  - intros args1 h1 args2 h2.
    rewrite (evaluate_frame path __dirname args1 h1),
            (evaluate_frame path __dirname args2 h2).
    eexists. split; reflexivity.
  - intros args h. generalize (module_exports_shift path __dirname args h).
    destruct (module_exports path __dirname [] []) as [e|[v0 h0]]; [tauto|].
    intros ->. do 2 eexists. split; [reflexivity|].
    intros l Hl. now apply lookup_old.
Qed.

(** C4. The factory is total and raises no error: for every argument list
    and heap it returns a reference to a newly allocated plain object, and
    the outcome is the one of a call without arguments. *)
Theorem module_exports_total (path : PathModule) (__dirname : string)
    (args : list value) (h : heap) :
  exists l h' props,
    module_exports path __dirname args h = inr (VRef l, h')
    /\ List.length h <= l
    /\ lookup h' l = Some (OObject props)
    /\ module_exports path __dirname args h
       = module_exports path __dirname [] h.
Proof.
  exists (12 + List.length h).
  generalize (module_exports_shift path __dirname args h).
  generalize (module_exports_shift path __dirname [] h).
  destruct (module_exports path __dirname [] []) as [e|[v0 h0]] eqn:E0;
    [tauto|].
  injection E0 as <- <-. intros -> ->.
  do 2 eexists. split; [reflexivity|]. split; [lia|].
  split; [|reflexivity].
  rewrite lookup_new. reflexivity.
Qed.

(** C5. [entry] has exactly the two chunks [main] and [sw], in this order:
    [main] is [path.join(__dirname, 'src/index.ts')] and [sw] is
    [path.join(__dirname, 'src/sw.ts')]. *)
Theorem entry_chunks (path : PathModule) (__dirname : string)
    (args : list value) (h : heap) :
  exists cfg,
    evaluate path __dirname args h = Some cfg
    /\ prop "entry" cfg
       = Some (TObject
                 [("main", TStr (join path [__dirname; "src/index.ts"]));
                  ("sw", TStr (join path [__dirname; "src/sw.ts"]))]).
Proof.
  rewrite evaluate_frame. eexists. split; reflexivity.
Qed.

(** ** Strings *)

Lemma append_assoc (a b c : string) :
  ((a ++ b) ++ c = a ++ (b ++ c))%string.
Proof. induction a as [|x a IH]; cbn; [reflexivity|now rewrite IH]. Qed.

Lemma append_nil_r (a : string) : (a ++ "")%string = a.
Proof. induction a as [|x a IH]; cbn; [reflexivity|now rewrite IH]. Qed.

Lemma append_nonempty_l (a b : string) : a <> "" -> (a ++ b)%string <> "".
Proof. destruct a; [congruence|discriminate]. Qed.

Lemma append_cancel_r (a b s : string) :
  (a ++ s)%string = (b ++ s)%string -> a = b.
Proof.
  assert (Hlen : forall x y, String.length (x ++ y) = String.length x + String.length y).
  { intros x y. induction x as [|c x IH]; cbn; [reflexivity|now rewrite IH]. }
  revert b. induction a as [|c a IH]; intros [|c' b] H; cbn in H.
  - reflexivity.
  - apply (f_equal String.length) in H. cbn in H. rewrite Hlen in H. lia.
  - apply (f_equal String.length) in H. cbn in H. rewrite Hlen in H. lia.
  - injection H as -> H. f_equal. now apply IH.
Qed.

Lemma prefix_append (a b : string) : String.prefix a (a ++ b) = true.
Proof.
  induction a as [|c a IH]; cbn; [now destruct b|].
  destruct (Ascii.ascii_dec c c); [exact IH|congruence].
Qed.

Lemma concat_cons_char sep c seg segs :
  String.concat sep (String c seg :: segs)
  = String c (String.concat sep (seg :: segs)).
Proof. now destruct segs. Qed.

Lemma string_concat_app sep (xs ys : list string) :
  xs <> [] -> ys <> [] ->
  String.concat sep (xs ++ ys)
  = (String.concat sep xs ++ sep ++ String.concat sep ys)%string.
Proof.
  intros Hxs Hys. induction xs as [|x xs IH]; [congruence|].
  destruct xs as [|x' xs].
  - cbn. destruct ys; [congruence|reflexivity].
  - change (String.concat sep ((x :: x' :: xs) ++ ys))
      with (x ++ sep ++ String.concat sep ((x' :: xs) ++ ys))%string.
    rewrite IH by discriminate.
    change (String.concat sep (x :: x' :: xs))
      with (x ++ sep ++ String.concat sep (x' :: xs))%string.
    now rewrite !append_assoc.
Qed.

(** ** The POSIX path module *)

Section PosixFacts.
Import Posix.

(** The examples of Node's documentation. *)
Example join_documented :
  Posix.join ["/foo"; "bar"; "baz/asdf"; "quux"; ".."] = "/foo/bar/baz/asdf".
Proof. reflexivity. Qed.

Example normalize_documented :
  normalize "/foo/bar//baz/asdf/quux/.." = "/foo/bar/baz/asdf".
Proof. reflexivity. Qed.

Example normalize_corner_cases :
  map normalize [""; "./"; "../.."; "/.."; "a/.."; "a/../"; "/a/"; "//"]
  = ["."; "./"; "../.."; "/"; "."; "./"; "/a/"; "/"].
Proof. reflexivity. Qed.

Lemma split_nonnil s : split s <> [].
Proof.
  destruct s as [|c s]; cbn; [discriminate|].
  destruct (Ascii.eqb c sep); [discriminate|].
  destruct (split s); discriminate.
Qed.

Lemma split_app a b :
  split (a ++ String sep b) = split a ++ split b.
Proof.
  induction a as [|c a IH]; cbn.
  - reflexivity.
  - rewrite IH. destruct (Ascii.eqb c sep); [reflexivity|].
    destruct (split a) as [|seg segs] eqn:Ha; [|reflexivity].
    now destruct (split_nonnil a).
Qed.

(** Splitting loses nothing: gluing the segments gives the path back. *)
Lemma concat_split s : String.concat "/" (split s) = s.
Proof.
  induction s as [|c s IH]; [reflexivity|]. cbn [split].
  destruct (Ascii.eqb_spec c sep) as [->|Hc].
  - destruct (split s) as [|seg segs] eqn:Hs; [now destruct (split_nonnil s)|].
    change (String.concat "/" ("" :: seg :: segs))
      with (String sep (String.concat "/" (seg :: segs))).
    now rewrite IH.
  - destruct (split s) as [|seg segs] eqn:Hs; [now destruct (split_nonnil s)|].
    rewrite concat_cons_char. now rewrite IH.
Qed.

Lemma fold_plain allow segs res :
  forallb plainSegment segs = true ->
  fold_left (normalizeStep allow) segs res = rev segs ++ res.
Proof.
  revert res. induction segs as [|seg segs IH]; intros res H; [reflexivity|].
  cbn in H. apply andb_true_iff in H as [Hseg Hsegs].
  cbn [fold_left rev]. rewrite IH by assumption.
  rewrite <- app_assoc. f_equal. cbn [app].
  unfold plainSegment in Hseg. apply negb_true_iff in Hseg.
  apply orb_false_iff in Hseg as [Hseg Hdd].
  unfold normalizeStep. now rewrite Hseg, Hdd.
Qed.

Lemma trailingSeparator_app a b :
  b <> "" -> trailingSeparator (a ++ b) = trailingSeparator b.
Proof.
  intros Hb. induction a as [|c a IH]; [reflexivity|].
  cbn [String.append trailingSeparator]. rewrite IH.
  destruct (a ++ b)%string eqn:E; [|reflexivity].
  destruct a; [cbn in E; congruence|discriminate].
Qed.

Lemma isAbsolute_inv d : isAbsolute d = true -> exists d', d = String sep d'.
Proof.
  destruct d as [|c d']; cbn; [discriminate|].
  intros Hc. apply Ascii.eqb_eq in Hc as ->. now exists d'.
Qed.

(** [normalize] and [join] never return the empty string. *)
Lemma normalize_nonempty s : normalize s <> "".
Proof.
  unfold normalize. destruct (String.eqb s ""); [discriminate|].
  destruct (String.eqb_spec (normalizeString s (negb (isAbsolute s))) "")
    as [_|Hp].
  - destruct (isAbsolute s); [discriminate|].
    destruct (trailingSeparator s); discriminate.
  - destruct (isAbsolute s); [discriminate|].
    change ("" ++ ?x)%string with x. now apply append_nonempty_l.
Qed.

Lemma join_nonempty args : Posix.join args <> "".
Proof.
  unfold Posix.join. destruct (filter _ args); [discriminate|].
  apply normalize_nonempty.
Qed.


Lemma stripTrailingSeparator_sep x :
  stripTrailingSeparator (x ++ "/") = x.
Proof.
  induction x as [|c x IH]; [reflexivity|].
  cbn [String.append stripTrailingSeparator]. rewrite IH.
  now destruct x.
Qed.

Lemma stripTrailingSeparator_id x :
  trailingSeparator x = false -> stripTrailingSeparator x = x.
Proof.
  induction x as [|c x IH]; [reflexivity|].
  cbn [trailingSeparator stripTrailingSeparator].
  destruct x as [|c' x]; [now intros ->|].
  intros H. now rewrite (IH H).
Qed.

(** With the directory as Node gives it, [join] puts exactly one separator
    between the directory and the relative path. *)
Lemma join_dirname_exact d rel :
  isAbsolute d = true ->
  normalize d = d ->
  rel <> "" ->
  trailingSeparator rel = false ->
  forallb plainSegment (split rel) = true ->
  Posix.join [d; rel] = (stripTrailingSeparator d ++ "/" ++ rel)%string.
Proof.
  intros Habs Hnorm Hrel Htrail Hplain.
  destruct (isAbsolute_inv d Habs) as [d' Hd].
  assert (Hjoin : Posix.join [d; rel] = normalize (d ++ String sep rel)).
  { unfold Posix.join. cbn [filter]. rewrite Hd at 1. cbn [String.eqb negb].
    destruct (String.eqb_spec rel ""); [contradiction|]. reflexivity. }
  rewrite Hjoin. clear Hjoin. unfold normalize in Hnorm |- *.
  assert (Habs' : isAbsolute (d ++ String sep rel) = true) by now rewrite Hd.
  assert (Hne : String.eqb (d ++ String sep rel) "" = false) by now rewrite Hd.
  rewrite Habs', Hne. rewrite Habs in Hnorm.
  replace (String.eqb d "") with false in Hnorm by now rewrite Hd.
  rewrite trailingSeparator_app by discriminate.
  replace (trailingSeparator (String sep rel)) with false
    by (cbn; destruct rel; [congruence|now rewrite Htrail]).
  unfold normalizeString in Hnorm |- *. cbn [negb] in Hnorm |- *.
  rewrite split_app, fold_left_app, fold_plain, rev_app_distr, rev_involutive
    by assumption.
  set (kept := rev (fold_left (normalizeStep false) (split d) [])) in *.
  destruct (String.eqb_spec (String.concat "/" kept) "") as [Hk|Hk].
  - assert (Hkept : kept = []) by (subst kept; now rewrite <- Hnorm).
    assert (Hstrip : stripTrailingSeparator d = "") by now rewrite <- Hnorm.
    rewrite Hkept, Hstrip. cbn [app]. rewrite concat_split.
    destruct (String.eqb_spec rel ""); [contradiction|].
    cbn. now rewrite append_nil_r.
  - assert (Hstrip : stripTrailingSeparator d
                     = ("/" ++ String.concat "/" kept)%string).
    { destruct (trailingSeparator d) eqn:Ht.
      - rewrite <- Hnorm at 1. rewrite <- append_assoc.
        apply stripTrailingSeparator_sep.
      - rewrite stripTrailingSeparator_id by assumption.
        rewrite <- Hnorm at 1. now rewrite append_nil_r. }
    rewrite Hstrip.
    assert (Hkept : kept <> []) by (intros E; rewrite E in Hk; now apply Hk).
    rewrite string_concat_app by (assumption || apply split_nonnil).
    rewrite concat_split.
    destruct (String.eqb_spec
                (String.concat "/" kept ++ "/" ++ rel)%string "") as [E|_].
    + now apply append_nonempty_l in E.
    + now rewrite append_nil_r, !append_assoc.
Qed.

Lemma stripTrailingSeparator_prefix d x :
  String.prefix d (stripTrailingSeparator d ++ String sep x) = true.
Proof.
  induction d as [|c d IH]; [now destruct x|].
  destruct d as [|c' d].
  - cbn [stripTrailingSeparator]. destruct (Ascii.eqb_spec c sep) as [->|_].
    + cbn. destruct (Ascii.ascii_dec sep sep); [now destruct x|congruence].
    + cbn. now destruct (Ascii.ascii_dec c c).
  - change (stripTrailingSeparator (String c (String c' d)))
      with (String c (stripTrailingSeparator (String c' d))).
    cbn [String.append String.prefix].
    destruct (Ascii.ascii_dec c c); [exact IH|congruence].
Qed.

Lemma prefix_absolute d p :
  isAbsolute d = true -> String.prefix d p = true -> isAbsolute p = true.
Proof.
  intros Habs Hpre. destruct (isAbsolute_inv d Habs) as [d' ->].
  destruct p as [|c p]; cbn [String.prefix isAbsolute] in Hpre |- *;
    [discriminate|].
  destruct (Ascii.ascii_dec sep c) as [<-|]; [reflexivity|discriminate].
Qed.

End PosixFacts.

(** ** The patterns of the loader rule *)

Section RegExpFacts.
Import RegExp.

Example parse_ts :
  parse "\.tsx?$" "" = Some [Char "."; Char "t"; Char "s"; Opt "x"; End].
Proof. reflexivity. Qed.

Example test_ts_samples :
  map (test "\.tsx?$" "") ["sw.ts"; "App.tsx"; "a.tsxx"; "index.js"; ".ts.bak"]
  = [Some true; Some true; Some false; Some false; Some false].
Proof. reflexivity. Qed.

Lemma matchHere_Char c p s :
  matchHere (Char c :: p) s = true
  <-> exists s', s = String c s' /\ matchHere p s' = true.
Proof.
  destruct s as [|a s]; cbn.
  - split; [discriminate|]. now intros (s' & Hs & _).
  - rewrite andb_true_iff, Ascii.eqb_eq. split.
    + intros [-> Hm]. now exists s.
    + intros (s' & Hs & Hm). now injection Hs as -> ->.
Qed.

Lemma matchHere_Opt c p s :
  matchHere (Opt c :: p) s = true
  <-> (exists s', s = String c s' /\ matchHere p s' = true)
      \/ matchHere p s = true.
Proof.
  destruct s as [|a s]; cbn.
  - split; [now right|]. now intros [(s' & Hs & _)|Hm].
  - rewrite orb_true_iff, andb_true_iff, Ascii.eqb_eq. split.
    + intros [[-> Hm]|Hm]; [left; now exists s|now right].
    + intros [(s' & Hs & Hm)|Hm]; [|now right].
      injection Hs as -> ->. now left.
Qed.

Lemma matchHere_End p s :
  matchHere (End :: p) s = true <-> s = "" /\ matchHere p "" = true.
Proof.
  destruct s as [|a s]; cbn.
  - tauto.
  - split; [discriminate|]. now intros [Hs _].
Qed.

(** An unanchored pattern is looked for at every position. *)
Lemma search_spec p s :
  search p s = true
  <-> exists before rest,
        s = (before ++ rest)%string /\ matchHere p rest = true.
Proof.
  induction s as [|a s IH]; cbn [search]; rewrite orb_true_iff.
  - split.
    + intros [Hm|Hf]; [|discriminate]. now exists "", "".
    + intros (before & rest & Hs & Hm). left.
      destruct before; [|discriminate]. cbn in Hs. now subst rest.
  - rewrite IH. split.
    + intros [Hm|(before & rest & -> & Hm)].
      * now exists "", (String a s).
      * now exists (String a before), rest.
    + intros (before & rest & Hs & Hm).
      destruct before as [|b before]; cbn in Hs.
      * left. now subst rest.
      * right. injection Hs as -> ->. now exists before, rest.
Qed.

(** A pattern of plain characters matches exactly its own text. *)
Lemma matchHere_literal cs s :
  matchHere (map Char cs) s = true
  <-> exists rest, s = (string_of_list_ascii cs ++ rest)%string.
Proof.
  revert s. induction cs as [|c cs IH]; intros s.
  - cbn. split; [now exists s|reflexivity].
  - cbn [map string_of_list_ascii]. rewrite matchHere_Char. split.
    + intros (s' & -> & Hm). apply IH in Hm as (rest & ->). now exists rest.
    + intros (rest & ->). eexists. split; [reflexivity|].
      apply IH. now exists rest.
Qed.

Lemma matchHere_ts s :
  matchHere [Char "."; Char "t"; Char "s"; Opt "x"; End] s = true
  <-> s = ".ts" \/ s = ".tsx".
Proof.
  split.
  - intros H.
    apply matchHere_Char in H as (s1 & -> & H).
    apply matchHere_Char in H as (s2 & -> & H).
    apply matchHere_Char in H as (s3 & -> & H).
    apply matchHere_Opt in H as [(s4 & -> & H)|H];
      apply matchHere_End in H as [-> _]; auto.
  - now intros [->| ->].
Qed.

Lemma test_ts file :
  exists b, test "\.tsx?$" "" file = Some b
            /\ (b = true <-> endsWith ".ts" file \/ endsWith ".tsx" file).
Proof.
  eexists. split; [reflexivity|]. rewrite search_spec. split.
  - intros (before & rest & -> & Hm).
    apply matchHere_ts in Hm as [-> | ->]; [left|right]; now exists before.
  - intros [[before ->]|[before ->]]; exists before; eexists;
      (split; [reflexivity|]); reflexivity.
Qed.

Lemma test_node_modules file :
  exists b, test "node_modules" "" file = Some b
            /\ (b = true <-> contains "node_modules" file).
Proof.
  eexists. split; [reflexivity|]. rewrite search_spec. split.
  - intros (before & rest & -> & Hm).
    apply (matchHere_literal (list_ascii_of_string "node_modules")) in Hm
      as (after & ->).
    now exists before, after.
  - intros (before & after & ->). exists before. eexists.
    split; [reflexivity|].
    apply (matchHere_literal (list_ascii_of_string "node_modules")).
    now exists after.
Qed.

End RegExpFacts.

(** ** Output file names *)

Lemma chunkFilename_name_js name :
  chunkFilename "[name].js" name = (name ++ ".js")%string.
Proof. reflexivity. Qed.

(** ** Rules, output and paths of the configuration *)

(** C6. [module.rules] holds exactly one rule, a triple of [test], [exclude]
    and [use]: its [test] pattern accepts exactly the file names ending in
    [.ts] or [.tsx], its [exclude] pattern exactly those containing
    [node_modules], and its loader chain is the single loader [ts-loader]. *)
Theorem loader_rule (path : PathModule) (__dirname : string)
    (args : list value) (h : heap) :
  exists cfg rule,
    evaluate path __dirname args h = Some cfg
    /\ prop "module" cfg >>= prop "rules" = Some (TArray [rule])
    /\ keys rule = ["test"; "exclude"; "use"]
    /\ (forall file,
          exists b, ruleTest "test" rule file = Some b
                    /\ (b = true <->
                        endsWith ".ts" file \/ endsWith ".tsx" file))
    /\ (forall file,
          exists b, ruleTest "exclude" rule file = Some b
                    /\ (b = true <-> contains "node_modules" file))
    /\ ruleLoaders rule = Some ["ts-loader"].
Proof.
  rewrite evaluate_frame. do 2 eexists.
  do 3 (split; [reflexivity|]).
  split; [exact test_ts|]. split; [exact test_node_modules|reflexivity].
Qed.

(** C7. With the POSIX path module, [output.path] and [output.filename] are
    strings and neither is empty, whatever the directory. *)
Theorem output_strings_nonempty (__dirname : string)
    (args : list value) (h : heap) :
  exists cfg out filename,
    evaluate posix __dirname args h = Some cfg
    /\ prop "output" cfg >>= prop "path" = Some (TStr out)
    /\ prop "output" cfg >>= prop "filename" = Some (TStr filename)
    /\ out <> "" /\ filename <> "".
Proof.
  rewrite evaluate_frame. do 3 eexists.
  do 3 (split; [reflexivity|]).
  split; [apply join_nonempty|discriminate].
Qed.

(** C9. The chunk names of [entry] are pairwise distinct; under the pattern
    of [output.filename] they are emitted as [main.js] and [sw.js], two
    distinct file names (the pattern maps distinct names to distinct files),
    and neither is the file name [index.html] of the HTML plugin. *)
Theorem chunk_filenames_distinct (path : PathModule) (__dirname : string)
    (args : list value) (h : heap) :
  exists cfg entry pattern html,
    evaluate path __dirname args h = Some cfg
    /\ prop "entry" cfg = Some entry
    /\ prop "output" cfg >>= prop "filename" = Some (TStr pattern)
    /\ htmlOptions cfg >>= prop "filename" = Some (TStr html)
    /\ NoDup (keys entry)
    /\ map (chunkFilename pattern) (keys entry) = ["main.js"; "sw.js"]
    /\ NoDup (map (chunkFilename pattern) (keys entry))
    /\ (forall n1 n2,
          chunkFilename pattern n1 = chunkFilename pattern n2 -> n1 = n2)
    /\ html = "index.html"
    /\ ~ In html (map (chunkFilename pattern) (keys entry)).
Proof.
  rewrite evaluate_frame. do 4 eexists.
  do 4 (split; [reflexivity|]).
  assert (Hnodup : forall a b : string, a <> b -> NoDup [a; b]).
  { intros a b Hab. repeat constructor; cbn; intuition congruence. }
  split; [apply Hnodup; discriminate|].
  split; [reflexivity|].
  split; [apply Hnodup; discriminate|].
  split.
  { intros n1 n2. rewrite !chunkFilename_name_js. apply append_cancel_r. }
  split; [reflexivity|].
  cbn. intuition discriminate.
Qed.

(** C10. When [__dirname] is what Node makes it, an absolute path in
    normal form, the paths of [entry] and [output.path] are formed by
    prefixing it: each is [__dirname] (less the separator the root ends in),
    one separator, and [src/index.ts], [src/sw.ts] or [dist]; so each is
    absolute and has [__dirname] as a prefix.  The template of the HTML
    plugin is left as the relative path [src/index.html], without that
    prefix. *)
Theorem paths_under_dirname (__dirname : string)
    (args : list value) (h : heap) :
  Posix.isAbsolute __dirname = true ->
  Posix.normalize __dirname = __dirname ->
  exists cfg,
    evaluate posix __dirname args h = Some cfg
    /\ pathsUnderDirname __dirname cfg.
Proof.
  intros Habs Hnorm.
  assert (Hjoin : forall rel,
             In rel ["src/index.ts"; "src/sw.ts"; "dist"] ->
             Posix.join [__dirname; rel]
             = (stripTrailingSeparator __dirname ++ "/" ++ rel)%string).
  { intros rel Hrel. apply join_dirname_exact; try assumption;
      cbn in Hrel; intuition (subst; (discriminate || reflexivity)). }
  pose proof (Hjoin "src/index.ts" ltac:(cbn; auto)) as H1.
  pose proof (Hjoin "src/sw.ts" ltac:(cbn; auto)) as H2.
  pose proof (Hjoin "dist" ltac:(cbn; auto)) as H3.
  rewrite evaluate_frame. eexists. split; [reflexivity|].
  exists (Posix.join [__dirname; "src/index.ts"]),
         (Posix.join [__dirname; "src/sw.ts"]),
         (Posix.join [__dirname; "dist"]), "src/index.html".
  do 3 (split; [reflexivity|]).
  split; [exact H1|]. split; [exact H2|]. split; [exact H3|].
  destruct (isAbsolute_inv _ Habs) as [d' Hd].
  split; [|split; [reflexivity|split; [reflexivity|now rewrite Hd]]].
  assert (Hpre : forall rel,
             String.prefix __dirname
               (stripTrailingSeparator __dirname ++ "/" ++ rel) = true)
    by (intros rel; apply stripTrailingSeparator_prefix).
  rewrite H1, H2, H3.
  intros p [<-|[<-|[<-|[]]]];
    (split; [apply (prefix_absolute __dirname); [exact Habs|]|]); apply Hpre.
Qed.

(** The hypotheses of [paths_under_dirname] hold of an actual checkout. *)
Lemma paths_under_dirname_witness :
  exists cfg,
    evaluate posix "/home/dev/response-verification/examples/service-worker"
      [] [] = Some cfg
    /\ pathsUnderDirname
         "/home/dev/response-verification/examples/service-worker" cfg.
Proof.
  apply (paths_under_dirname
           "/home/dev/response-verification/examples/service-worker" [] []);
    reflexivity.
Defined.

(** * Further properties *)

(** ** The settings *)

(** X1. The configuration has the six properties [mode], [entry], [target],
    [output], [module] and [plugins], in this order: the mode is
    [development], the target [webworker], [output] has [path], [filename]
    and [publicPath] with the public path [/], [module] has [rules] only,
    and [plugins] holds one [HtmlWebpackPlugin] made from one options object
    with template [src/index.html], file name [index.html] and chunks
    [main]. *)
Theorem configuration_settings (path : PathModule) (__dirname : string)
    (args : list value) (h : heap) :
  exists cfg output plugin,
    evaluate path __dirname args h = Some cfg
    /\ keys cfg = ["mode"; "entry"; "target"; "output"; "module"; "plugins"]
    /\ prop "mode" cfg = Some (TStr "development")
    /\ prop "target" cfg = Some (TArray [TStr "webworker"])
    /\ prop "output" cfg = Some output
    /\ keys output = ["path"; "filename"; "publicPath"]
    /\ prop "path" output = Some (TStr (join path [__dirname; "dist"]))
    /\ prop "filename" output = Some (TStr "[name].js")
    /\ prop "publicPath" output = Some (TStr "/")
    /\ option_map keys (prop "module" cfg) = Some ["rules"]
    /\ prop "plugins" cfg = Some (TArray [plugin])
    /\ plugin = TInstance "HtmlWebpackPlugin"
                  [TObject [("template", TStr "src/index.html");
                            ("filename", TStr "index.html");
                            ("chunks", TArray [TStr "main"])]].
Proof.
  rewrite evaluate_frame. do 3 eexists. repeat (split; [reflexivity|]).
  reflexivity.
Qed.

(** ** More on strings *)

Lemma append_cancel_l (s a b : string) :
  (s ++ a)%string = (s ++ b)%string -> a = b.
Proof. induction s as [|c s IH]; cbn; [auto|]. intros H. injection H as H. auto. Qed.



Lemma contains_append_r part a b : contains part b -> contains part (a ++ b).
Proof.
  intros (before & after & ->). exists (a ++ before)%string, after.
  now rewrite !append_assoc.
Qed.


(** ** Normal forms in the POSIX path module *)

Section PosixMore.
Import Posix.

Lemma plain_not_absolute rel :
  forallb plainSegment (split rel) = true -> isAbsolute rel = false.
Proof.
  destruct rel as [|c rel]; [reflexivity|]. cbn [split isAbsolute].
  destruct (Ascii.eqb c sep); [discriminate|reflexivity].
Qed.

Lemma trailingSeparator_cons c s :
  s <> "" -> trailingSeparator (String c s) = trailingSeparator s.
Proof. destruct s; [congruence|reflexivity]. Qed.

Lemma isAbsolute_app a b : a <> "" -> isAbsolute (a ++ b) = isAbsolute a.
Proof. destruct a; [congruence|reflexivity]. Qed.

Lemma eqb_app_nonempty a b : a <> "" -> String.eqb (a ++ b) "" = false.
Proof. destruct a; [congruence|reflexivity]. Qed.

(** *** Segments *)

Lemma split_noSep s : Forall (fun seg => noSep seg = true) (split s).
Proof.
  induction s as [|c s IH]; cbn [split]; [repeat constructor|].
  destruct (Ascii.eqb c sep) eqn:Hc; [now constructor|].
  destruct (split s) as [|seg segs]; [repeat constructor; cbn; now rewrite Hc|].
  inversion IH as [|? ? Hseg Hsegs]; subst. constructor; [|exact Hsegs].
  cbn. now rewrite Hc, Hseg.
Qed.

Lemma split_single s : noSep s = true -> split s = [s].
Proof.
  induction s as [|c s IH]; [reflexivity|]. cbn [noSep split].
  intros H. apply andb_true_iff in H as [Hc Hs]. apply negb_true_iff in Hc.
  now rewrite Hc, (IH Hs).
Qed.

Lemma split_concat segs :
  segs <> [] -> Forall (fun seg => noSep seg = true) segs ->
  split (String.concat "/" segs) = segs.
Proof.
  induction segs as [|x segs IH]; [congruence|]. intros _ H.
  inversion H as [|? ? Hx Hsegs]; subst.
  destruct segs as [|y segs]; [now apply split_single|].
  change (String.concat "/" (x :: y :: segs))
    with (x ++ String sep (String.concat "/" (y :: segs)))%string.
  rewrite split_app, (split_single x Hx), IH by (discriminate || assumption).
  reflexivity.
Qed.

Lemma noSep_trailing s : noSep s = true -> trailingSeparator s = false.
Proof.
  induction s as [|c s IH]; [reflexivity|]. cbn [noSep]. intros H.
  apply andb_true_iff in H as [Hc Hs]. apply negb_true_iff in Hc.
  destruct s as [|c' s]; [exact Hc|]. now apply IH.
Qed.

Lemma plain_nonempty seg : plainSegment seg = true -> seg <> "".
Proof. now intros H ->. Qed.

(** *** The stack of kept segments *)

Lemma normalStack_nil allow : normalStack allow [].
Proof.
  split; [constructor|]. exists [], 0. repeat split; auto.
Qed.

Lemma normalizeStep_normalStack allow res seg :
  noSep seg = true -> normalStack allow res ->
  normalStack allow (normalizeStep allow res seg).
Proof.
  intros Hseg [Hsep (plain & k & -> & Hplain & Hk)]. unfold normalizeStep.
  destruct (String.eqb_spec seg "") as [->|Hne]; cbn [orb].
  { split; [exact Hsep|]. now exists plain, k. }
  destruct (String.eqb_spec seg ".") as [->|Hnd].
  { split; [exact Hsep|]. now exists plain, k. }
  destruct (String.eqb_spec seg "..") as [->|Hndd].
  - destruct plain as [|p plain]; cbn [app].
    + destruct k as [|k]; cbn [repeat].
      * destruct allow.
        -- split; [repeat constructor|]. exists [], 1. repeat split; auto.
           discriminate.
        -- apply normalStack_nil.
      * cbn [String.eqb Ascii.eqb Bool.eqb]. destruct allow.
        -- split; [now constructor|]. exists [], (S (S k)).
           repeat split; auto. discriminate.
        -- split; [exact Hsep|]. exists [], (S k). repeat split; auto.
    + inversion Hplain as [|? ? Hp Hplain']; subst.
      destruct (String.eqb_spec p "..") as [->|_]; [discriminate Hp|].
      inversion Hsep; subst. split; [assumption|]. now exists plain, k.
  - split; [now constructor|]. exists (seg :: plain), k.
    repeat split; auto. constructor; [|exact Hplain].
    unfold plainSegment.
    destruct (String.eqb_spec seg ""); [contradiction|].
    destruct (String.eqb_spec seg "."); [contradiction|].
    destruct (String.eqb_spec seg ".."); [contradiction|reflexivity].
Qed.

Lemma fold_normalStack allow segs res :
  Forall (fun seg => noSep seg = true) segs -> normalStack allow res ->
  normalStack allow (fold_left (normalizeStep allow) segs res).
Proof.
  intros Hsegs. revert res. induction Hsegs as [|seg segs Hseg _ IH]; intros res H.
  - exact H.
  - cbn [fold_left]. apply IH. now apply normalizeStep_normalStack.
Qed.

Lemma normalStack_nonempty allow res :
  normalStack allow res -> Forall (fun seg => seg <> "") res.
Proof.
  intros [_ (plain & k & -> & Hplain & _)]. apply Forall_app. split.
  - eapply Forall_impl; [|exact Hplain]. intros seg. apply plain_nonempty.
  - apply Forall_forall. intros seg Hin. apply repeat_spec in Hin. now subst.
Qed.

Lemma fold_dotdots k j :
  fold_left (normalizeStep true) (repeat ".." k) (repeat ".." j)
  = repeat ".." (k + j).
Proof.
  revert j. induction k as [|k IH]; intros j; [reflexivity|].
  cbn [repeat fold_left].
  replace (normalizeStep true (repeat ".." j) "..") with (repeat ".." (S j))
    by now destruct j.
  rewrite IH. f_equal. lia.
Qed.


(** Feeding a result back reproduces it: nothing is left to resolve. *)
Lemma normalStack_replay allow res :
  normalStack allow res ->
  fold_left (normalizeStep allow) (rev res) [] = res.
Proof.
  intros [_ (plain & k & -> & Hplain & Hk)].
  rewrite rev_app_distr, rev_repeat, fold_left_app.
  assert (Hdots : fold_left (normalizeStep allow) (repeat ".." k) []
                  = repeat ".." k).
  { destruct allow.
    - change (@nil string) with (repeat ".." 0). rewrite fold_dotdots.
      f_equal. lia.
    - now rewrite (Hk eq_refl). }
  rewrite Hdots, fold_plain, rev_involutive; [reflexivity|].
  apply forallb_forall. intros seg Hin. apply in_rev in Hin.
  rewrite Forall_forall in Hplain. auto.
Qed.

Lemma concat_nonempty seg segs :
  seg <> "" -> String.concat "/" (seg :: segs) <> "".
Proof.
  intros Hseg. destruct segs; [exact Hseg|].
  change (String.concat "/" (seg :: s :: segs))
    with (seg ++ "/" ++ String.concat "/" (s :: segs))%string.
  now apply append_nonempty_l.
Qed.

Lemma concat_trailing segs :
  Forall (fun seg => noSep seg = true) segs ->
  Forall (fun seg => seg <> "") segs ->
  trailingSeparator (String.concat "/" segs) = false.
Proof.
  induction segs as [|x segs IH]; [reflexivity|]. intros Hsep Hne.
  inversion Hsep as [|? ? Hx Hsegs]; inversion Hne as [|? ? Hxne Hsegsne]; subst.
  destruct segs as [|y segs]; [now apply noSep_trailing|].
  change (String.concat "/" (x :: y :: segs))
    with (x ++ String sep (String.concat "/" (y :: segs)))%string.
  rewrite trailingSeparator_app by discriminate.
  rewrite trailingSeparator_cons; [now apply IH|].
  apply concat_nonempty. now inversion Hsegsne.
Qed.

Lemma concat_not_absolute seg segs :
  noSep seg = true -> seg <> "" ->
  isAbsolute (String.concat "/" (seg :: segs)) = false.
Proof.
  intros Hsep Hne. destruct seg as [|c seg]; [congruence|].
  cbn in Hsep. apply andb_true_iff in Hsep as [Hc _]. apply negb_true_iff in Hc.
  now destruct segs.
Qed.

(** A path put together from a stack of kept segments: it is absolute and
    ends in a separator as asked, and scanning it gives the stack back. *)
Lemma normal_form_facts (abs trail : bool) res :
  normalStack (negb abs) res -> res <> [] ->
  let r := ((if abs then "/" else "")
            ++ String.concat "/" (rev res)
            ++ (if trail then "/" else ""))%string in
  String.eqb r "" = false
  /\ isAbsolute r = abs
  /\ trailingSeparator r = trail
  /\ fold_left (normalizeStep (negb abs)) (split r) [] = res
  /\ String.concat "/" (rev res) <> "".
Proof.
  intros Hstack Hne.
  pose proof (normalStack_nonempty _ _ Hstack) as Hnonempty.
  pose proof Hstack as [Hsep _].
  apply Forall_rev in Hsep, Hnonempty.
  destruct (rev res) as [|seg segs] eqn:Hrev.
  { apply (f_equal (@rev string)) in Hrev. rewrite rev_involutive in Hrev.
    contradiction. }
  set (p := String.concat "/" (seg :: segs)) in *.
  assert (Hp : p <> "") by (apply concat_nonempty; now inversion Hnonempty).
  assert (Hpabs : isAbsolute p = false)
    by (apply concat_not_absolute; [now inversion Hsep|now inversion Hnonempty]).
  assert (Hptrail : trailingSeparator p = false) by now apply concat_trailing.
  assert (Hsplit : split p = seg :: segs) by now apply split_concat.
  assert (Hfold : forall segs',
             fold_left (normalizeStep (negb abs)) (seg :: segs ++ segs') []
             = fold_left (normalizeStep (negb abs)) segs' res).
  { intros segs'. change (seg :: segs ++ segs') with ((seg :: segs) ++ segs').
    rewrite fold_left_app, <- Hrev. now rewrite normalStack_replay. }
  assert (Hsp : split (p ++ (if trail then "/" else ""))
                = seg :: segs ++ (if trail then [""] else [])).
  { destruct trail.
    - change (p ++ "/")%string with (p ++ String sep "")%string.
      now rewrite split_app, Hsplit.
    - now rewrite append_nil_r, Hsplit, app_nil_r. }
  cbv zeta. split; [|split; [|split; [|split]]].
  - destruct abs; [reflexivity|].
    change ("" ++ ?x)%string with x. now apply eqb_app_nonempty.
  - destruct abs; [reflexivity|].
    change ("" ++ ?x)%string with x. now rewrite isAbsolute_app.
  - destruct trail.
    + rewrite <- append_assoc. now rewrite trailingSeparator_app.
    + rewrite append_nil_r. rewrite trailingSeparator_app by assumption.
      exact Hptrail.
  - destruct abs.
    + change ("/" ++ ?x)%string with (String sep x).
      cbn [split Ascii.eqb Bool.eqb sep fold_left].
      change (normalizeStep (negb true) [] "") with (@nil string).
      rewrite Hsp, Hfold. now destruct trail.
    + change ("" ++ ?x)%string with x.
      rewrite Hsp, Hfold. now destruct trail.
  - exact Hp.
Qed.

Lemma normalize_of_stack (abs trail : bool) res :
  normalStack (negb abs) res -> res <> [] ->
  normalize ((if abs then "/" else "")
             ++ String.concat "/" (rev res)
             ++ (if trail then "/" else ""))
  = ((if abs then "/" else "")
     ++ String.concat "/" (rev res)
     ++ (if trail then "/" else ""))%string.
Proof.
  intros Hstack Hne.
  destruct (normal_form_facts abs trail res Hstack Hne)
    as (Hr & Habs & Htrail & Hfold & Hp).
  unfold normalize, normalizeString. rewrite Hr, Habs, Htrail, Hfold.
  destruct (String.eqb_spec (String.concat "/" (rev res)) "");
    [contradiction|reflexivity].
Qed.

(** What [normalize] changes is invisible to a later scan: the normal form
    has the segments kept from the path, and is absolute when the path is. *)
Lemma normalize_scan s :
  s <> "" ->
  isAbsolute (normalize s) = isAbsolute s
  /\ normalize s <> ""
  /\ fold_left (normalizeStep (negb (isAbsolute s))) (split (normalize s)) []
     = fold_left (normalizeStep (negb (isAbsolute s))) (split s) [].
Proof.
  intros Hs. split; [|split; [apply normalize_nonempty|]];
    unfold normalize; (destruct (String.eqb_spec s ""); [contradiction|]);
    unfold normalizeString;
    set (res := fold_left (normalizeStep (negb (isAbsolute s))) (split s) []);
    assert (Hstack : normalStack (negb (isAbsolute s)) res)
      by (apply fold_normalStack; [apply split_noSep|apply normalStack_nil]);
    (destruct (String.eqb_spec (String.concat "/" (rev res)) "") as [Hp|Hp];
     [assert (Hres : res = [])
        by (pose proof (normalStack_nonempty _ _ Hstack) as Hnonempty;
            apply Forall_rev in Hnonempty;
            destruct (rev res) as [|seg segs] eqn:Hrev;
            [apply (f_equal (@rev string)) in Hrev;
             now rewrite rev_involutive in Hrev
            |now apply concat_nonempty in Hp; [|inversion Hnonempty]])
     |assert (Hres : res <> []) by now intros ->]).
  - destruct (isAbsolute s); [reflexivity|].
    destruct (trailingSeparator s); reflexivity.
  - now destruct (normal_form_facts _ (trailingSeparator s) res Hstack Hres)
      as (_ & Habs & _).
  - rewrite Hres. destruct (isAbsolute s); [reflexivity|].
    destruct (trailingSeparator s); reflexivity.
  - now destruct (normal_form_facts _ (trailingSeparator s) res Hstack Hres)
      as (_ & _ & _ & Hfold & _).
Qed.

(** [normalize] is idempotent. *)
Lemma normalize_idempotent s : normalize (normalize s) = normalize s.
Proof.
  unfold normalize at 2 3.
  destruct (String.eqb s ""); [reflexivity|].
  unfold normalizeString.
  set (res := fold_left (normalizeStep (negb (isAbsolute s))) (split s) []).
  assert (Hstack : normalStack (negb (isAbsolute s)) res)
    by (apply fold_normalStack; [apply split_noSep|apply normalStack_nil]).
  destruct (String.eqb_spec (String.concat "/" (rev res)) "") as [_|Hp].
  - destruct (isAbsolute s); [reflexivity|].
    destruct (trailingSeparator s); reflexivity.
  - apply normalize_of_stack; [exact Hstack|]. now intros ->.
Qed.

Lemma join_normalized args : normalize (Posix.join args) = Posix.join args.
Proof.
  unfold Posix.join. destruct (filter _ args); [reflexivity|].
  apply normalize_idempotent.
Qed.

Lemma join_two d rel :
  d <> "" -> rel <> "" ->
  Posix.join [d; rel] = normalize (d ++ String sep rel).
Proof.
  intros Hd Hrel. unfold Posix.join. cbn [filter].
  destruct (String.eqb_spec d ""); [contradiction|].
  destruct (String.eqb_spec rel ""); [contradiction|]. reflexivity.
Qed.

(** With a plain relative path, [join] appends that path to a base which
    depends on the directory alone. *)
Lemma join_base d :
  exists base,
    (base = "" \/ exists b, base = (b ++ "/")%string)
    /\ isAbsolute base = isAbsolute d
    /\ forall rel,
         rel <> "" ->
         trailingSeparator rel = false ->
         forallb plainSegment (split rel) = true ->
         Posix.join [d; rel] = (base ++ rel)%string.
Proof.
  destruct (String.eqb_spec d "") as [->|Hd].
  - exists "". split; [now left|]. split; [reflexivity|].
    intros rel Hrel Htrail Hplain. unfold Posix.join. cbn [filter String.eqb negb].
    destruct (String.eqb_spec rel ""); [contradiction|]. cbn [negb String.concat].
    unfold normalize. destruct (String.eqb_spec rel ""); [contradiction|].
    rewrite (plain_not_absolute rel Hplain), Htrail. cbn [negb].
    unfold normalizeString.
    rewrite fold_plain, app_nil_r, rev_involutive by assumption.
    rewrite concat_split. destruct (String.eqb_spec rel ""); [contradiction|].
    cbn. now rewrite append_nil_r.
  - remember (isAbsolute d) as abs eqn:Habs.
    set (res := fold_left (normalizeStep (negb abs)) (split d) []).
    assert (Hstack : normalStack (negb abs) res)
      by (apply fold_normalStack; [apply split_noSep|apply normalStack_nil]).
    pose proof (normalStack_nonempty _ _ Hstack) as Hnonempty.
    destruct Hstack as [Hsep _]. apply Forall_rev in Hsep, Hnonempty.
    exists ((if abs then "/" else "")
            ++ match rev res with
               | [] => ""
               | _ => String.concat "/" (rev res) ++ "/"
               end)%string.
    split; [|split].
    + destruct (rev res) as [|seg segs].
      * destruct abs; [right; now exists ""|now left].
      * right. eexists. now rewrite <- append_assoc.
    + destruct abs; [reflexivity|].
      change ("" ++ ?x)%string with x.
      destruct (rev res) as [|seg segs]; [reflexivity|].
      rewrite isAbsolute_app
        by (apply concat_nonempty; now inversion Hnonempty).
      apply concat_not_absolute; [now inversion Hsep|now inversion Hnonempty].
    + intros rel Hrel Htrail Hplain.
      rewrite join_two by assumption. unfold normalize.
      rewrite isAbsolute_app, <- Habs, eqb_app_nonempty by assumption.
      rewrite trailingSeparator_app by discriminate.
      rewrite trailingSeparator_cons, Htrail by assumption.
      unfold normalizeString.
      rewrite split_app, fold_left_app, fold_plain, rev_app_distr, rev_involutive
        by assumption.
      fold res. cbv zeta.
      assert (Hp : String.concat "/" (rev res ++ split rel)
                   = (match rev res with
                      | [] => ""
                      | _ => String.concat "/" (rev res) ++ "/"
                      end ++ rel)%string).
      { destruct (rev res) as [|seg segs].
        - cbn [app]. now rewrite concat_split.
        - rewrite string_concat_app by (discriminate || apply split_nonnil).
          now rewrite concat_split, !append_assoc. }
      rewrite Hp.
      match goal with
      | |- context [String.eqb ?s ""] =>
          destruct (String.eqb_spec s "") as [E|_]
      end.
      * exfalso. destruct (rev res) as [|seg segs]; [now cbn in E|].
        rewrite append_assoc in E.
        destruct (String.concat "/" (seg :: segs)); discriminate.
      * now rewrite append_nil_r, append_assoc.
Qed.

(** A separator at the end of the directory is absorbed. *)
Lemma join_trailing d rel :
  d <> "" -> rel <> "" ->
  Posix.join [(d ++ "/")%string; rel] = Posix.join [d; rel].
Proof.
  intros Hd Hrel.
  rewrite !join_two by (assumption || now apply append_nonempty_l).
  unfold normalize.
  rewrite !eqb_app_nonempty by (assumption || now apply append_nonempty_l).
  rewrite !isAbsolute_app by (assumption || now apply append_nonempty_l).
  rewrite !trailingSeparator_app by discriminate.
  unfold normalizeString.
  change (d ++ "/")%string with (d ++ String sep "")%string.
  rewrite !split_app, !fold_left_app. cbn [split fold_left].
  set (allow := negb (isAbsolute d)).
  set (res := fold_left (normalizeStep allow) (split d) []).
  change (normalizeStep allow res "") with res.
  reflexivity.
Qed.

(** Joining with a directory or with its normal form is the same. *)
Lemma join_normalize d rel :
  rel <> "" -> isAbsolute rel = false ->
  Posix.join [normalize d; rel] = Posix.join [d; rel].
Proof.
  intros Hrel Hrelabs.
  destruct (String.eqb_spec d "") as [->|Hd].
  - change (normalize "") with ".". rewrite join_two by (discriminate || assumption).
    assert (Hempty : Posix.join [""; rel] = normalize rel).
    { unfold Posix.join. cbn [filter String.eqb negb].
      now destruct (String.eqb_spec rel ""). }
    rewrite Hempty. unfold normalize.
    rewrite eqb_app_nonempty, isAbsolute_app by discriminate.
    rewrite trailingSeparator_app by discriminate.
    rewrite trailingSeparator_cons by assumption.
    destruct (String.eqb_spec rel ""); [contradiction|].
    rewrite Hrelabs. unfold normalizeString.
    now rewrite split_app, fold_left_app.
  - destruct (normalize_scan d Hd) as (Habs & Hne & Hfold).
    rewrite !join_two by assumption. unfold normalize at 1 3.
    rewrite !eqb_app_nonempty, !isAbsolute_app, Habs by assumption.
    rewrite !trailingSeparator_app by discriminate.
    unfold normalizeString. now rewrite !split_app, !fold_left_app, Hfold.
Qed.

End PosixMore.

(** ** The paths of the configuration *)

(** The configuration depends on the path module and the directory only
    through the three joined paths. *)
Lemma evaluate_ext path1 dir1 path2 dir2 :
  (forall rel, In rel ["src/index.ts"; "src/sw.ts"; "dist"] ->
               join path1 [dir1; rel] = join path2 [dir2; rel]) ->
  evaluate path1 dir1 [] [] = evaluate path2 dir2 [] [].
Proof.
  intros H.
  pose proof (H "src/index.ts" ltac:(cbn; auto)) as H1.
  pose proof (H "src/sw.ts" ltac:(cbn; auto)) as H2.
  pose proof (H "dist" ltac:(cbn; auto)) as H3.
  cbv [evaluate snapshot module_exports bind path_join validateStrings ret
       new_object new_array new_instance alloc].
  rewrite H1, H2, H3. reflexivity.
Qed.



(** X7. A separator at the end of a non-empty [__dirname] does not change
    the configuration. *)
Theorem trailing_separator_irrelevant (__dirname : string)
    (args : list value) (h : heap) :
  __dirname <> "" ->
  evaluate posix (__dirname ++ "/") args h = evaluate posix __dirname args h.
Proof.
  intros Hd.
  rewrite (evaluate_frame posix (__dirname ++ "/") args h),
          (evaluate_frame posix __dirname args h).
  apply evaluate_ext. intros rel Hrel. apply join_trailing; [exact Hd|].
  cbn in Hrel. intuition (subst; discriminate).
Qed.

(** A directory that meets the hypothesis of [trailing_separator_irrelevant]. *)
Lemma trailing_separator_irrelevant_witness :
  evaluate posix ("/srv/app" ++ "/") [] [] = evaluate posix "/srv/app" [] [].
Proof.
  apply (trailing_separator_irrelevant "/srv/app" [] []). discriminate.
Defined.

(** X5. Whatever [__dirname], the paths of [entry] and [output.path] are in
    normal form: normalizing them again changes nothing. *)
Theorem paths_normalized (__dirname : string)
    (args : list value) (h : heap) :
  exists cfg main sw out,
    evaluate posix __dirname args h = Some cfg
    /\ prop "entry" cfg = Some (TObject [("main", TStr main); ("sw", TStr sw)])
    /\ prop "output" cfg >>= prop "path" = Some (TStr out)
    /\ Posix.normalize main = main
    /\ Posix.normalize sw = sw
    /\ Posix.normalize out = out.
Proof.
  rewrite evaluate_frame. do 4 eexists. do 3 (split; [reflexivity|]).
  repeat split; apply join_normalized.
Qed.

(** X4. Whatever [__dirname], there is one base, empty or ending in a
    separator and absolute exactly when [__dirname] is, such that the entry
    paths are the base followed by [src/index.ts] and [src/sw.ts] and the
    output path is the base followed by [dist]. *)
Theorem paths_share_base (__dirname : string)
    (args : list value) (h : heap) :
  exists cfg base,
    evaluate posix __dirname args h = Some cfg
    /\ (base = "" \/ endsWith "/" base)
    /\ Posix.isAbsolute base = Posix.isAbsolute __dirname
    /\ prop "entry" cfg
       = Some (TObject [("main", TStr (base ++ "src/index.ts"));
                        ("sw", TStr (base ++ "src/sw.ts"))])
    /\ prop "output" cfg >>= prop "path" = Some (TStr (base ++ "dist")).
Proof.
  destruct (join_base __dirname) as (base & Hshape & Habs & Hjoin).
  pose proof (Hjoin "src/index.ts" ltac:(discriminate) eq_refl eq_refl) as H1.
  pose proof (Hjoin "src/sw.ts" ltac:(discriminate) eq_refl eq_refl) as H2.
  pose proof (Hjoin "dist" ltac:(discriminate) eq_refl eq_refl) as H3.
  rewrite evaluate_frame. eexists. exists base. split; [reflexivity|].
  split; [destruct Hshape as [->|[b ->]]; [now left|right; now exists b]|].
  split; [exact Habs|].
  change (join posix) with Posix.join.
  split; cbn -[Posix.join String.append]; [rewrite H1, H2|rewrite H3]; reflexivity.
Qed.

(** X6. Whatever [__dirname], the two entry paths and the output path are
    pairwise different, and no path below the output directory is an entry
    file. *)
Theorem output_apart_from_sources (__dirname : string)
    (args : list value) (h : heap) :
  exists cfg main sw out,
    evaluate posix __dirname args h = Some cfg
    /\ prop "entry" cfg = Some (TObject [("main", TStr main); ("sw", TStr sw)])
    /\ prop "output" cfg >>= prop "path" = Some (TStr out)
    /\ main <> sw /\ out <> main /\ out <> sw
    /\ forall file,
         (out ++ "/" ++ file)%string <> main
         /\ (out ++ "/" ++ file)%string <> sw.
Proof.
  destruct (join_base __dirname) as (base & _ & _ & Hjoin).
  pose proof (Hjoin "src/index.ts" ltac:(discriminate) eq_refl eq_refl) as H1.
  pose proof (Hjoin "src/sw.ts" ltac:(discriminate) eq_refl eq_refl) as H2.
  pose proof (Hjoin "dist" ltac:(discriminate) eq_refl eq_refl) as H3.
  rewrite evaluate_frame. do 4 eexists. do 3 (split; [reflexivity|]).
  change (join posix) with Posix.join. rewrite H1, H2, H3.
  assert (Hne : forall a b : string, a <> b -> (base ++ a)%string <> (base ++ b)%string)
    by (intros a b Hab E; now apply append_cancel_l in E).
  do 3 (split; [apply Hne; discriminate|]).
  intros file. rewrite !append_assoc. split; apply Hne; discriminate.
Qed.

(** X9. Whatever [__dirname], both entry paths pass the [test] pattern of the
    loader rule. *)
Theorem entries_pass_test (__dirname : string)
    (args : list value) (h : heap) :
  exists cfg rule main sw,
    evaluate posix __dirname args h = Some cfg
    /\ prop "entry" cfg = Some (TObject [("main", TStr main); ("sw", TStr sw)])
    /\ prop "module" cfg >>= prop "rules" = Some (TArray [rule])
    /\ ruleTest "test" rule main = Some true
    /\ ruleTest "test" rule sw = Some true.
Proof.
  destruct (join_base __dirname) as (base & _ & _ & Hjoin).
  pose proof (Hjoin "src/index.ts" ltac:(discriminate) eq_refl eq_refl) as H1.
  pose proof (Hjoin "src/sw.ts" ltac:(discriminate) eq_refl eq_refl) as H2.
  rewrite evaluate_frame. do 4 eexists. do 3 (split; [reflexivity|]).
  change (join posix) with Posix.join. rewrite H1, H2.
  change (ruleTest "test" ?r ?f) with (RegExp.test "\.tsx?$" "" f).
  split.
  - destruct (test_ts (base ++ "src/index.ts")) as (b & -> & Hiff).
    f_equal. apply Hiff. left. exists (base ++ "src/index")%string.
    now rewrite append_assoc.
  - destruct (test_ts (base ++ "src/sw.ts")) as (b & -> & Hiff).
    f_equal. apply Hiff. left. exists (base ++ "src/sw")%string.
    now rewrite append_assoc.
Qed.




(** X8. The configuration depends on [__dirname] only through its normal
    form. *)
Theorem dirname_up_to_normalize (__dirname : string)
    (args : list value) (h : heap) :
  evaluate posix (Posix.normalize __dirname) args h
  = evaluate posix __dirname args h.
Proof.
  rewrite (evaluate_frame posix (Posix.normalize __dirname) args h),
          (evaluate_frame posix __dirname args h).
  apply evaluate_ext. intros rel Hrel.
  apply join_normalize; cbn in Hrel; intuition (subst; (discriminate || reflexivity)).
Qed.
